(** * HotSpot runtime primitives: frame anchor, serialization-page poll, klassOop

    A shallow embedding of three pieces of the VM:

    - [JavaFrameAnchor] (cpu/x86/vm/javaFrameAnchor_x86.hpp): the per-thread
      record of the last Java frame, with [clear], [copy], [walkable],
      [make_walkable] and the accessors;
    - [serialize_memory] (os/windows/vm/interfaceSupport_windows.hpp): the
      write to the memory serialization page wrapped in [__try]/[__except];
    - [klassOopDesc] (share/vm/oops/klassOop.hpp): [header_size],
      [klass_part_offset_in_bytes] and [klass_part].

    Memory model for the anchor.  The three fields are [volatile] pointers and
    the target is x86, so stores become visible in program order and a load
    returns the value of the latest store.  A method body is therefore a list
    of statements, each doing at most one store; an "instant" of a call is the
    heap after a prefix of that list, and a reader running on another thread
    loads each field at an instant of its choice. *)

From Stdlib Require Import ZArith Lia.
From stdpp Require Import base option list gmap.

Local Open Scope Z_scope.

(** Pointers ([intptr_t*], [address], [JavaFrameAnchor*]) are byte addresses. *)
Abbreviation address := Z (only parsing).

Definition NULL : address := 0.

Module FrameAnchor.

(** The anchor's fields.  [_last_Java_sp] and [_last_Java_pc] are declared in
    the shared part of the class, [_last_Java_fp] in the x86 part. *)
Record JavaFrameAnchor : Type := mkAnchor {
  _last_Java_sp : address;
  _last_Java_pc : address;
  _last_Java_fp : address
}.

#[global] Instance JavaFrameAnchor_eq_dec : EqDecision JavaFrameAnchor.
Proof. solve_decision. Defined.

Inductive field : Type := SP | FP | PC.

#[global] Instance field_eq_dec : EqDecision field.
Proof. solve_decision. Defined.

Definition get (f : field) (a : JavaFrameAnchor) : address :=
  match f with
  | SP => _last_Java_sp a
  | FP => _last_Java_fp a
  | PC => _last_Java_pc a
  end.

Definition set (f : field) (v : address) (a : JavaFrameAnchor) : JavaFrameAnchor :=
  match f with
  | SP => mkAnchor v (_last_Java_pc a) (_last_Java_fp a)
  | FP => mkAnchor (_last_Java_sp a) (_last_Java_pc a) v
  | PC => mkAnchor (_last_Java_sp a) v (_last_Java_fp a)
  end.

(** The store of anchors, by address.  Two pointers may name the same anchor. *)
Abbreviation heap := (gmap Z JavaFrameAnchor) (only parsing).

(** [p->f]; [None] when [p] points to no anchor. *)
Definition load (h : heap) (p : address) (f : field) : option address :=
  get f <$> h !! p.

(** What one statement does to memory. *)
Inductive action : Type :=
  | Store (p : address) (f : field) (v : address)   (* p->f = v *)
  | Skip.                                           (* a guard that was false *)

#[global] Instance action_eq_dec : EqDecision action.
Proof. solve_decision. Defined.

(** A statement reads the heap and decides on its action. *)
Definition stmt : Type := heap → option action.

Definition perform (act : action) (h : heap) : option heap :=
  match act with
  | Skip => Some h
  | Store p f v => a ← h !! p; Some (<[p := set f v a]> h)
  end.

(** Runs a body; returns the actions in program order and the final heap. *)
Fixpoint run (body : list stmt) (h : heap) : option (list action * heap) :=
  match body with
  | [] => Some ([], h)
  | s :: rest =>
      act ← s h;
      h' ← perform act h;
      r ← run rest h';
      Some (act :: r.1, r.2)
  end.

Definition exec (body : list stmt) (h : heap) : option heap :=
  snd <$> run body h.

Definition actions (body : list stmt) (h : heap) : option (list action) :=
  fst <$> run body h.

(** ** The methods *)

(** [void clear(void)] *)
Definition clear (this : address) : list stmt :=
  [ (* clearing _last_Java_sp must be first *)
    (λ _, Some (Store this SP NULL));
    (λ _, Some (Store this FP NULL));
    (λ _, Some (Store this PC NULL)) ].

(** [void copy(JavaFrameAnchor* src)] *)
Definition copy (this src : address) : list stmt :=
  [ (λ h, mine ← load h this SP;
          theirs ← load h src SP;
          Some (if decide (mine ≠ theirs) then Store this SP NULL else Skip));
    (λ h, v ← load h src FP; Some (Store this FP v));
    (λ h, v ← load h src PC; Some (Store this PC v));
    (* Must be last *)
    (λ h, v ← load h src SP; Some (Store this SP v)) ].

(** [bool walkable(void) { return true; }] *)
Definition walkable (this : address) (h : heap) : bool := true.

(** [void make_walkable(JavaThread* thread) { }] *)
Definition make_walkable (this thread : address) : list stmt := [].

(** [intptr_t* last_Java_sp(void) const] and [intptr_t* last_Java_fp(void)] *)
Definition last_Java_sp (this : address) (h : heap) : option address :=
  load h this SP.
Definition last_Java_fp (this : address) (h : heap) : option address :=
  load h this FP.

(** [void set_last_Java_sp(intptr_t* sp)] and [void set_last_Java_fp(intptr_t* fp)] *)
Definition set_last_Java_sp (this sp : address) : list stmt :=
  [ (λ _, Some (Store this SP sp)) ].
Definition set_last_Java_fp (this fp : address) : list stmt :=
  [ (λ _, Some (Store this FP fp)) ].

(** ** Instants and samples *)

(** The heap once the first [i] statements of [body] have run; from
    [length body] on this is the heap after the call. *)
Definition heap_at (body : list stmt) (h : heap) (i : nat) : option heap :=
  exec (take i body) h.

(** The anchor at [p] at instant [i]. *)
Definition anchor_at (body : list stmt) (h : heap) (p : address) (i : nat)
  : option JavaFrameAnchor :=
  h' ← heap_at body h i; h' !! p.

(** A reader that loads SP at instant [i], FP at [j] and PC at [k]. *)
Definition sample (body : list stmt) (h : heap) (p : address) (i j k : nat)
  : option JavaFrameAnchor :=
  x ← anchor_at body h p i;
  y ← anchor_at body h p j;
  z ← anchor_at body h p k;
  Some (mkAnchor (_last_Java_sp x) (_last_Java_pc z) (_last_Java_fp y)).

(** A reader that loads SP first and loads it again after FP and PC, and
    keeps the sample only when both loads of SP agree. *)
Definition checked_sample (body : list stmt) (h : heap) (p : address)
  (i j k l : nat) : option JavaFrameAnchor :=
  s ← sample body h p i j k;
  x ← anchor_at body h p l;
  if decide (_last_Java_sp s = _last_Java_sp x) then Some s else None.

(** ** The anchor at each instant of a call *)

(** The anchor after [i] statements of [clear]. *)
Definition clear_state (a : JavaFrameAnchor) (i : nat) : JavaFrameAnchor :=
  match i with
  | 0%nat => a
  | 1%nat => set SP NULL a
  | 2%nat => set FP NULL (set SP NULL a)
  | _ => mkAnchor NULL NULL NULL
  end.

(** The anchor after [i] statements of [copy] when the guard is true. *)
Definition copy_state (a b : JavaFrameAnchor) (i : nat) : JavaFrameAnchor :=
  match i with
  | 0%nat => a
  | 1%nat => set SP NULL a
  | 2%nat => set FP (_last_Java_fp b) (set SP NULL a)
  | 3%nat => set PC (_last_Java_pc b) (set FP (_last_Java_fp b) (set SP NULL a))
  | _ => b
  end.

(** The anchor after [i] statements of [copy] when the guard is false. *)
Definition copy_same_state (a b : JavaFrameAnchor) (i : nat) : JavaFrameAnchor :=
  match i with
  | 0%nat | 1%nat => a
  | 2%nat => set FP (_last_Java_fp b) a
  | 3%nat => set PC (_last_Java_pc b) (set FP (_last_Java_fp b) a)
  | _ => b
  end.

(** ** Consistency of what a reader samples *)

(** [s] is the anchor at [p] as it was before the call of [body] or as it is
    after it. *)
Definition before_or_after (body : list stmt) (h : heap) (p : address)
  (s : JavaFrameAnchor) : Prop :=
  Some s = h !! p ∨ Some s = exec body h ≫= (.!! p).

(** Every sample, whatever the instants of its three loads, is the state
    before or the state after. *)
Definition anchor_consistency (body : list stmt) (h : heap) (p : address) : Prop :=
  ∀ i j k s, sample body h p i j k = Some s → before_or_after body h p s.

(** ** A scenario: a thread in native code with SP=0x1000, FP=0x0FF0,
    PC=0x2000; a saved anchor of another frame; a saved anchor of the same
    frame with other FP and PC. *)
Definition published : JavaFrameAnchor := mkAnchor 0x1000 0x2000 0x0FF0.
Definition saved_other : JavaFrameAnchor := mkAnchor 0x1100 0x3000 0x10F0.
Definition saved_same_sp : JavaFrameAnchor := mkAnchor 0x1000 0x2400 0x0FE0.

Definition scenario : heap :=
  <[0x7000 := published]>
    (<[0x7100 := saved_other]> (<[0x7200 := saved_same_sp]> ∅)).

End FrameAnchor.

Module InterfaceSupport.

(** The part of [_EXCEPTION_POINTERS] that a filter inspects: the exception
    code and, for an access violation, the address that was accessed. *)
Record EXCEPTION_RECORD : Type := mkException {
  ExceptionCode : Z;
  fault_address : address
}.

#[global] Instance EXCEPTION_RECORD_eq_dec : EqDecision EXCEPTION_RECORD.
Proof. solve_decision. Defined.

Definition EXCEPTION_ACCESS_VIOLATION : Z := 0xC0000005.

(** The three values an [__except] filter expression may have. *)
Inductive filter_result : Type :=
  | EXCEPTION_EXECUTE_HANDLER      (*  1: run the handler block *)
  | EXCEPTION_CONTINUE_SEARCH      (*  0: pass the exception to outer handlers *)
  | EXCEPTION_CONTINUE_EXECUTION.  (* -1: resume at the faulting instruction *)

(** How a call leaves: it returns, or the exception unwinds to the caller's
    handlers.  [m] is the machine state at that point. *)
Inductive outcome (M : Type) : Type :=
  | Returned (m : M)
  | Unwinding (e : EXCEPTION_RECORD) (m : M).

Arguments Returned {M} m.
Arguments Unwinding {M} e m.

Section SerializeMemory.

Context {M : Type}.

(** [os::write_memory_serialize_page] and [os::win32::serialize_fault_filter]
    are declared elsewhere; the wrapper is modelled for any pair of them.
    The write either completes or faults with an exception. *)
Variable write_memory_serialize_page : address → M → M + EXCEPTION_RECORD * M.
Variable serialize_fault_filter : EXCEPTION_RECORD → filter_result.

(** [static inline void serialize_memory(JavaThread *thread)]:
    [__try { write } __except (filter) {}].  The fuel bounds how often the
    filter may ask for the faulting write to be resumed. *)
Fixpoint serialize_memory (fuel : nat) (thread : address) (m : M)
  : option (outcome M) :=
  match fuel with
  | O => None
  | S fuel' =>
      match write_memory_serialize_page thread m with
      | inl m' => Some (Returned m')
      | inr (e, m') =>
          match serialize_fault_filter e with
          | EXCEPTION_EXECUTE_HANDLER => Some (Returned m')   (* {} *)
          | EXCEPTION_CONTINUE_SEARCH => Some (Unwinding e m')
          | EXCEPTION_CONTINUE_EXECUTION => serialize_memory fuel' thread m'
          end
      end
  end.

End SerializeMemory.

(** Modelled from the spec: what [os::win32::serialize_fault_filter], which
    is not part of the sources at hand, takes for a fault of the poll.  The
    handler "recognizes the specific faulting address as the safepoint page";
    the fault is the protection fault that the revoked write access raises. *)
Definition is_safepoint_page_fault (page : address) (e : EXCEPTION_RECORD) : bool :=
  bool_decide (ExceptionCode e = EXCEPTION_ACCESS_VIOLATION)
  && bool_decide (fault_address e = page).

(** Modelled from the spec: [os::win32::serialize_fault_filter], which is not
    part of the sources at hand.  "Only real safepoint-page faults are
    swallowed"; the handler "re-raises any fault not at the exact
    safepoint-page address". *)
Definition spec_serialize_fault_filter (page : address) (e : EXCEPTION_RECORD)
  : filter_result :=
  if is_safepoint_page_fault page e
  then EXCEPTION_EXECUTE_HANDLER
  else EXCEPTION_CONTINUE_SEARCH.

(** Modelled from the spec: [os::write_memory_serialize_page] is not part of
    the sources at hand.  The poll is "a single memory write to that page";
    once the coordinator has revoked write access the write "raises a
    protection fault".  The machine state is the page's protection and the
    word last written to it. *)
Record serialize_page : Type := mkPage {
  page_address : address;
  page_writable : bool;
  page_word : Z
}.

Definition spec_write_memory_serialize_page (thread : address) (m : serialize_page)
  : serialize_page + EXCEPTION_RECORD * serialize_page :=
  if page_writable m
  then inl (mkPage (page_address m) true 1)
  else inr (mkException EXCEPTION_ACCESS_VIOLATION (page_address m), m).

(** ** A scenario: the page at 0x5000 is in the middle of a protect/unprotect
    sequence and is writable again after a number of attempts (the machine
    state counts them); the filter resumes the write on a fault of the
    page. *)
Definition write_after (thread : address) (attempts : nat)
  : nat + EXCEPTION_RECORD * nat :=
  match attempts with
  | O => inl O
  | S k => inr (mkException EXCEPTION_ACCESS_VIOLATION 0x5000, k)
  end.

Definition resuming_filter (e : EXCEPTION_RECORD) : filter_result :=
  if is_safepoint_page_fault 0x5000 e
  then EXCEPTION_CONTINUE_EXECUTION
  else EXCEPTION_CONTINUE_SEARCH.

End InterfaceSupport.

Module KlassOop.

(** The two layout constants the header relies on: [sizeof(klassOopDesc)]
    (the class adds no member to [oopDesc]) and [HeapWordSize].  Both are
    fixed when the VM is compiled. *)
Class Layout : Type := mkLayout {
  sizeof_klassOopDesc : Z;
  HeapWordSize : Z
}.

(** Conversion of a value to [int] (32 bits, two's complement). *)
Definition to_int (z : Z) : Z := (z + 2 ^ 31) mod 2 ^ 32 - 2 ^ 31.

(** The contents of memory, one pointer-sized word per address. *)
Abbreviation memory := (gmap Z Z) (only parsing).

Section WithLayout.

Context `{Layout}.

(** [static int header_size()] *)
Definition header_size : Z :=
  to_int (sizeof_klassOopDesc ÷ HeapWordSize).

(** [static int klass_part_offset_in_bytes()] *)
Definition klass_part_offset_in_bytes : Z :=
  to_int sizeof_klassOopDesc.

(** [Klass* klass_part()]: pointer arithmetic on [this], no load. *)
Definition klass_part (this : address) : address :=
  this + klass_part_offset_in_bytes.

(** A call [k->f()] of a static member function evaluates the receiver and
    drops it: the function has no [this]. *)
Definition call_header_size (k : address) (mem : memory) : Z := header_size.
Definition call_klass_part_offset_in_bytes (k : address) (mem : memory) : Z :=
  klass_part_offset_in_bytes.

(** The accessor as the specification words it: the Class Object holds a
    pointer field at the fixed offset and [descriptor()] "dereferences that
    offset", that is, returns the word stored there. *)
Definition descriptor_by_dereference (mem : memory) (this : address)
  : option address :=
  mem !! (this + klass_part_offset_in_bytes).

End WithLayout.

(** 32-bit and 64-bit x86: a mark word and a klass pointer. *)
Definition x86_32 : Layout := mkLayout 8 4.
Definition x86_64 : Layout := mkLayout 16 8.

End KlassOop.

(** * Properties of the frame anchor *)

Section FrameAnchorFacts.

Import FrameAnchor.

(** Symbolic execution of a body on a heap whose lookups are known. *)
Ltac symex :=
  repeat (cbn [run take mbind option_bind fmap option_fmap option_map perform
               get set fst snd mret option_ret
               _last_Java_sp _last_Java_fp _last_Java_pc];
          unfold load;
          rewrite ?take_nil, ?insert_insert_eq, ?lookup_insert_eq;
          rewrite ?lookup_insert_ne by done;
          repeat match goal with
                 | H : ?h !! ?p = Some _ |- context [?h !! ?p] => rewrite H
                 | H : ?h !! ?p = None |- context [?h !! ?p] => rewrite H
                 end;
          rewrite ?decide_True by done;
          rewrite ?decide_False by (intros ?; congruence)).

Lemma run_clear (h : heap) this a i :
  h !! this = Some a →
  run (take i (clear this)) h =
    Some (take i [Store this SP NULL; Store this FP NULL; Store this PC NULL],
          <[this := clear_state a i]> h).
Proof.
  intros Ha. destruct a as [sa pa fa].
  destruct i as [|[|[|i]]]; unfold clear; symex; try done.
  by rewrite insert_id.
Qed.

Lemma run_clear_dangling (h : heap) this :
  h !! this = None → run (clear this) h = None.
Proof. intros Hn. unfold clear. by symex. Qed.

Lemma run_copy_changed (h : heap) this src a b i :
  h !! this = Some a → h !! src = Some b →
  _last_Java_sp a ≠ _last_Java_sp b →
  run (take i (copy this src)) h =
    Some (take i [Store this SP NULL; Store this FP (_last_Java_fp b);
                  Store this PC (_last_Java_pc b);
                  Store this SP (_last_Java_sp b)],
          <[this := copy_state a b i]> h).
Proof.
  intros Ha Hb Hne.
  assert (this ≠ src) by congruence.
  destruct a as [sa pa fa], b as [sb pb fb]; simpl in *.
  destruct i as [|[|[|[|i]]]]; unfold copy; symex; try done.
  by rewrite insert_id.
Qed.

Lemma run_copy_same (h : heap) this src a b i :
  h !! this = Some a → h !! src = Some b →
  _last_Java_sp a = _last_Java_sp b →
  run (take i (copy this src)) h =
    Some (take i [Skip; Store this FP (_last_Java_fp b);
                  Store this PC (_last_Java_pc b);
                  Store this SP (_last_Java_sp b)],
          <[this := copy_same_state a b i]> h).
Proof.
  intros Ha Hb He.
  destruct (decide (this = src)) as [->|Hts].
  - assert (a = b) as <- by congruence. destruct a as [sa pa fa].
    destruct i as [|[|[|[|i]]]]; unfold copy; symex;
      rewrite ?insert_id by done; symex; by rewrite ?insert_id.
  - destruct a as [sa pa fa], b as [sb pb fb]; simpl in *; subst sb.
    destruct i as [|[|[|[|i]]]]; unfold copy; symex;
      rewrite ?insert_id by done; symex; try done.
Qed.

Lemma anchor_at_clear (h : heap) this a i :
  h !! this = Some a →
  anchor_at (clear this) h this i = Some (clear_state a i).
Proof.
  intros Ha. unfold anchor_at, heap_at, exec.
  rewrite (run_clear h this a i Ha). simpl. apply lookup_insert_eq.
Qed.

Lemma anchor_at_copy_changed (h : heap) this src a b i :
  h !! this = Some a → h !! src = Some b →
  _last_Java_sp a ≠ _last_Java_sp b →
  anchor_at (copy this src) h this i = Some (copy_state a b i).
Proof.
  intros Ha Hb Hne. unfold anchor_at, heap_at, exec.
  rewrite (run_copy_changed h this src a b i Ha Hb Hne). simpl.
  apply lookup_insert_eq.
Qed.

Lemma anchor_at_copy_same (h : heap) this src a b i :
  h !! this = Some a → h !! src = Some b →
  _last_Java_sp a = _last_Java_sp b →
  anchor_at (copy this src) h this i = Some (copy_same_state a b i).
Proof.
  intros Ha Hb He. unfold anchor_at, heap_at, exec.
  rewrite (run_copy_same h this src a b i Ha Hb He). simpl.
  apply lookup_insert_eq.
Qed.

Lemma exec_clear (h : heap) this a :
  h !! this = Some a →
  exec (clear this) h = Some (<[this := mkAnchor NULL NULL NULL]> h).
Proof.
  intros Ha. unfold exec.
  change (clear this) with (take 3 (clear this)).
  by rewrite (run_clear h this a 3 Ha).
Qed.

Lemma exec_copy_changed (h : heap) this src a b :
  h !! this = Some a → h !! src = Some b →
  _last_Java_sp a ≠ _last_Java_sp b →
  exec (copy this src) h = Some (<[this := b]> h).
Proof.
  intros Ha Hb Hne. unfold exec.
  change (copy this src) with (take 4 (copy this src)).
  by rewrite (run_copy_changed h this src a b 4 Ha Hb Hne).
Qed.

(** C1.  When [copy] is called with a source whose [_last_Java_sp] differs
    from the destination's, it stores NULL to the destination's SP, then the
    source's FP, then its PC, then its SP, in this order.  At every instant
    of the call the destination anchor exists, and whenever its SP is present
    it is the complete old state or the complete new state; an instant that
    still shows the old, present SP shows the old FP and PC too.  After the
    call the destination equals the source. *)
Theorem copy_changed_sp_protocol (h : heap) this src a b :
  h !! this = Some a → h !! src = Some b →
  _last_Java_sp a ≠ _last_Java_sp b →
  actions (copy this src) h =
    Some [Store this SP NULL; Store this FP (_last_Java_fp b);
          Store this PC (_last_Java_pc b); Store this SP (_last_Java_sp b)]
  ∧ (∀ i, ∃ x, anchor_at (copy this src) h this i = Some x
        ∧ (_last_Java_sp x ≠ NULL → x = a ∨ x = b)
        ∧ (_last_Java_sp x ≠ NULL → _last_Java_sp x = _last_Java_sp a → x = a))
  ∧ exec (copy this src) h = Some (<[this := b]> h)
  ∧ (<[this := b]> h) !! this = h !! src.
Proof.
  intros Ha Hb Hne. split; [|split; [|split]].
  - unfold actions. change (copy this src) with (take 4 (copy this src)).
    by rewrite (run_copy_changed h this src a b 4 Ha Hb Hne).
  - intros i. exists (copy_state a b i). split.
    + by apply anchor_at_copy_changed.
    + destruct a as [sa pa fa], b as [sb pb fb]; simpl in Hne.
      destruct i as [|[|[|[|i]]]]; simpl; split; intros; auto; congruence.
  - by eapply exec_copy_changed.
  - rewrite Hb. apply lookup_insert_eq.
Qed.

Lemma copy_changed_sp_protocol_witness :
  actions (copy 0x7000 0x7100) scenario =
    Some [Store 0x7000 SP NULL; Store 0x7000 FP 0x10F0;
          Store 0x7000 PC 0x3000; Store 0x7000 SP 0x1100]
  ∧ exec (copy 0x7000 0x7100) scenario = Some (<[0x7000 := saved_other]> scenario).
Proof.
  assert (Hne : _last_Java_sp published ≠ _last_Java_sp saved_other)
    by (simpl; lia).
  destruct (copy_changed_sp_protocol scenario 0x7000 0x7100 published
              saved_other eq_refl eq_refl Hne) as (Hact & _ & Hex & _).
  exact (conj Hact Hex).
Defined.

(** ** Readers *)

Lemma sample_clear (h : heap) this a i j k :
  h !! this = Some a →
  sample (clear this) h this i j k =
    Some (mkAnchor (_last_Java_sp (clear_state a i))
                   (_last_Java_pc (clear_state a k))
                   (_last_Java_fp (clear_state a j))).
Proof.
  intros Ha. unfold sample. by rewrite !(anchor_at_clear h this a _ Ha).
Qed.

Lemma sample_copy_changed (h : heap) this src a b i j k :
  h !! this = Some a → h !! src = Some b →
  _last_Java_sp a ≠ _last_Java_sp b →
  sample (copy this src) h this i j k =
    Some (mkAnchor (_last_Java_sp (copy_state a b i))
                   (_last_Java_pc (copy_state a b k))
                   (_last_Java_fp (copy_state a b j))).
Proof.
  intros Ha Hb Hne. unfold sample.
  by rewrite !(anchor_at_copy_changed h this src a b _ Ha Hb Hne).
Qed.

Lemma sample_copy_same (h : heap) this src a b i j k :
  h !! this = Some a → h !! src = Some b →
  _last_Java_sp a = _last_Java_sp b →
  sample (copy this src) h this i j k =
    Some (mkAnchor (_last_Java_sp (copy_same_state a b i))
                   (_last_Java_pc (copy_same_state a b k))
                   (_last_Java_fp (copy_same_state a b j))).
Proof.
  intros Ha Hb He. unfold sample.
  by rewrite !(anchor_at_copy_same h this src a b _ Ha Hb He).
Qed.

(** From the first store on, [clear] shows no SP. *)
Lemma clear_state_sp a l : (1 ≤ l)%nat → _last_Java_sp (clear_state a l) = NULL.
Proof. destruct l as [|[|[|l]]]; [lia | done..]. Qed.

(** Between its first and its last store, [copy] shows no SP. *)
Lemma copy_state_sp_mid a b l :
  (1 ≤ l ≤ 3)%nat → _last_Java_sp (copy_state a b l) = NULL.
Proof. destruct l as [|[|[|[|l]]]]; [lia | done.. | lia]. Qed.

Lemma copy_state_done a b l : (4 ≤ l)%nat → copy_state a b l = b.
Proof. destruct l as [|[|[|[|l]]]]; [lia.. | done]. Qed.

(** C2, as amended.  One writer runs [clear], or [copy] with a changed
    [_last_Java_sp]; one reader loads SP, then FP and PC, then SP again, each
    load at any instant of the writer's call, and keeps the sample when both
    loads of SP agree.  Every kept sample with SP present is the anchor's
    complete state before the call or its complete state after it.  When
    [copy] is called with an unchanged [_last_Java_sp], every sample has that
    SP, and its FP and its PC are each the old or the new value. *)
Theorem checked_sample_consistent (h : heap) this src a b :
  h !! this = Some a → h !! src = Some b →
  (∀ i j k l s, (i ≤ j ≤ l)%nat → (i ≤ k ≤ l)%nat →
     checked_sample (clear this) h this i j k l = Some s →
     _last_Java_sp s ≠ NULL →
     before_or_after (clear this) h this s)
  ∧ (_last_Java_sp a ≠ _last_Java_sp b →
     ∀ i j k l s, (i ≤ j ≤ l)%nat → (i ≤ k ≤ l)%nat →
       checked_sample (copy this src) h this i j k l = Some s →
       _last_Java_sp s ≠ NULL →
       before_or_after (copy this src) h this s)
  ∧ (_last_Java_sp a = _last_Java_sp b →
     ∀ i j k, ∃ s, sample (copy this src) h this i j k = Some s
       ∧ _last_Java_sp s = _last_Java_sp a
       ∧ (_last_Java_fp s = _last_Java_fp a ∨ _last_Java_fp s = _last_Java_fp b)
       ∧ (_last_Java_pc s = _last_Java_pc a ∨ _last_Java_pc s = _last_Java_pc b)).
Proof.
  intros Ha Hb. split; [|split].
  - intros i j k l s Hj Hk Hs Hp. left. rewrite Ha. f_equal.
    unfold checked_sample in Hs.
    rewrite (sample_clear h this a i j k Ha) in Hs.
    rewrite (anchor_at_clear h this a l Ha) in Hs. simpl in Hs.
    case_decide as Hsp; [|done]. injection Hs as <-. simpl in Hp.
    destruct (decide (l = 0%nat)) as [->|Hl].
    + assert (i = 0%nat) as -> by lia. assert (j = 0%nat) as -> by lia.
      assert (k = 0%nat) as -> by lia. by destruct a.
    + rewrite (clear_state_sp a l) in Hsp by lia. done.
  - intros Hne i j k l s Hj Hk Hs Hp.
    unfold before_or_after.
    rewrite (exec_copy_changed h this src a b Ha Hb Hne). simpl.
    rewrite lookup_insert_eq, Ha.
    unfold checked_sample in Hs.
    rewrite (sample_copy_changed h this src a b i j k Ha Hb Hne) in Hs.
    rewrite (anchor_at_copy_changed h this src a b l Ha Hb Hne) in Hs.
    simpl in Hs. case_decide as Hsp; [|done]. injection Hs as <-.
    simpl in Hp.
    destruct (decide (i = 0%nat)) as [->|Hi].
    + (* SP was loaded before the first store *)
      destruct (decide (l = 0%nat)) as [->|Hl].
      * assert (j = 0%nat) as -> by lia. assert (k = 0%nat) as -> by lia.
        left. by destruct a.
      * destruct (decide (l ≤ 3)%nat).
        -- rewrite (copy_state_sp_mid a b l) in Hsp by lia. done.
        -- rewrite (copy_state_done a b l) in Hsp by lia. done.
    + destruct (decide (i ≤ 3)%nat).
      * rewrite (copy_state_sp_mid a b i) in Hp by lia. done.
      * (* SP was loaded after the last store *)
        right. rewrite !copy_state_done by lia. by destruct b.
  - intros He i j k. eexists. split.
    + by apply sample_copy_same.
    + destruct a as [sa pa fa], b as [sb pb fb]; simpl in He; subst sb.
      simpl. split; [|split].
      * by destruct i as [|[|[|[|i]]]].
      * destruct j as [|[|[|[|j]]]]; simpl; auto.
      * destruct k as [|[|[|[|k]]]]; simpl; auto.
Qed.

Lemma checked_sample_consistent_witness :
  checked_sample (copy 0x7000 0x7100) scenario 0x7000 4 5 6 7 = Some saved_other
  ∧ before_or_after (copy 0x7000 0x7100) scenario 0x7000 saved_other.
Proof.
  split; [reflexivity|].
  assert (Hne : _last_Java_sp published ≠ _last_Java_sp saved_other)
    by (simpl; lia).
  destruct (checked_sample_consistent scenario 0x7000 0x7100 published
              saved_other eq_refl eq_refl) as (_ & Hcopy & _).
  apply (Hcopy Hne 4 5 6 7 saved_other)%nat; [lia | lia | reflexivity |].
  simpl. unfold NULL. lia.
Defined.

(** C2, as stated, fails.  In the scenario a reader whose three loads all
    fall right after the first store of [clear] sees SP absent with the old
    FP and PC; one that loads SP before [clear] and FP, PC after it sees the
    old SP with cleared FP and PC; and during a [copy] with unchanged SP a
    reader sees the new FP with the old PC.  None of these samples is the
    state before or the state after. *)
Lemma anchor_consistency_counterexample :
  sample (clear 0x7000) scenario 0x7000 1 1 1 = Some (mkAnchor NULL 0x2000 0x0FF0)
  ∧ sample (clear 0x7000) scenario 0x7000 0 3 3 = Some (mkAnchor 0x1000 NULL NULL)
  ∧ sample (copy 0x7000 0x7200) scenario 0x7000 2 2 2 =
      Some (mkAnchor 0x1000 0x2000 0x0FE0)
  ∧ ¬ anchor_consistency (clear 0x7000) scenario 0x7000
  ∧ ¬ anchor_consistency (copy 0x7000 0x7100) scenario 0x7000
  ∧ ¬ anchor_consistency (copy 0x7000 0x7200) scenario 0x7000.
Proof.
  split; [reflexivity|]. split; [reflexivity|]. split; [reflexivity|].
  split; [|split].
  - intros Hc.
    destruct (Hc 1 1 1 (mkAnchor NULL 0x2000 0x0FF0) eq_refl)%nat as [Hx|Hx];
      vm_compute in Hx; discriminate Hx.
  - intros Hc.
    destruct (Hc 1 1 1 (mkAnchor NULL 0x2000 0x0FF0) eq_refl)%nat as [Hx|Hx];
      vm_compute in Hx; discriminate Hx.
  - intros Hc.
    destruct (Hc 2 2 2 (mkAnchor 0x1000 0x2000 0x0FE0) eq_refl)%nat as [Hx|Hx];
      vm_compute in Hx; discriminate Hx.
Qed.

(** C4.  [clear] stores NULL to [_last_Java_sp] first, then to
    [_last_Java_fp] and [_last_Java_pc]: right after the first store SP is
    absent while FP and PC still hold their old values.  Once [clear] has
    returned the anchor is all NULL, and so is whatever a reader loads from
    then on: no Java frame. *)
Theorem clear_sp_first (h : heap) this a :
  h !! this = Some a →
  actions (clear this) h =
    Some [Store this SP NULL; Store this FP NULL; Store this PC NULL]
  ∧ anchor_at (clear this) h this 1 =
      Some (mkAnchor NULL (_last_Java_pc a) (_last_Java_fp a))
  ∧ exec (clear this) h = Some (<[this := mkAnchor NULL NULL NULL]> h)
  ∧ (∀ i j k, (3 ≤ i)%nat → (3 ≤ j)%nat → (3 ≤ k)%nat →
       sample (clear this) h this i j k = Some (mkAnchor NULL NULL NULL))
  ∧ (∀ h', exec (clear this) h = Some h' →
       last_Java_sp this h' = Some NULL ∧ last_Java_fp this h' = Some NULL
       ∧ load h' this PC = Some NULL).
Proof.
  intros Ha. split; [|split; [|split; [|split]]].
  - unfold actions. change (clear this) with (take 3 (clear this)).
    by rewrite (run_clear h this a 3 Ha).
  - by rewrite (anchor_at_clear h this a 1 Ha).
  - by eapply exec_clear.
  - intros i j k Hi Hj Hk. rewrite (sample_clear h this a i j k Ha).
    destruct i as [|[|[|i]]]; [lia.. |].
    destruct j as [|[|[|j]]]; [lia.. |].
    destruct k as [|[|[|k]]]; [lia.. |]. done.
  - intros h' Hx. rewrite (exec_clear h this a Ha) in Hx. injection Hx as <-.
    unfold last_Java_sp, last_Java_fp, load.
    by rewrite lookup_insert_eq.
Qed.

Lemma clear_sp_first_witness :
  actions (clear 0x7000) scenario =
    Some [Store 0x7000 SP NULL; Store 0x7000 FP NULL; Store 0x7000 PC NULL]
  ∧ anchor_at (clear 0x7000) scenario 0x7000 1 = Some (mkAnchor NULL 0x2000 0x0FF0)
  ∧ exec (clear 0x7000) scenario =
      Some (<[0x7000 := mkAnchor NULL NULL NULL]> scenario).
Proof.
  destruct (clear_sp_first scenario 0x7000 published eq_refl)
    as (Hact & Hfirst & Hex & _).
  exact (conj Hact (conj Hfirst Hex)).
Defined.

(** C7.  [walkable] answers true for every anchor and every heap, and
    [make_walkable] has an empty body: it performs no action and leaves the
    heap as it is at each of its instants. *)
Theorem always_walkable (h : heap) this thread :
  walkable this h = true
  ∧ run (make_walkable this thread) h = Some ([], h)
  ∧ ∀ i, heap_at (make_walkable this thread) h i = Some h.
Proof.
  split; [done|]. split; [done|]. intros i.
  unfold heap_at, make_walkable. by rewrite take_nil.
Qed.

(** C8.  Running [clear] a second time right after the first leaves the heap
    that the first call produced; this holds for every heap and every
    pointer, also when the pointer names no anchor and both fail. *)
Theorem clear_idempotent (h : heap) this :
  exec (clear this) h ≫= exec (clear this) = exec (clear this) h
  ∧ exec (clear this ++ clear this) h = exec (clear this) h.
Proof.
  destruct (h !! this) as [a|] eqn:Ha.
  - rewrite (exec_clear h this a Ha). simpl.
    assert (Hagain : exec (clear this) (<[this := mkAnchor NULL NULL NULL]> h)
                     = Some (<[this := mkAnchor NULL NULL NULL]> h)).
    { rewrite (exec_clear _ this (mkAnchor NULL NULL NULL)).
      - by rewrite insert_insert_eq.
      - apply lookup_insert_eq. }
    split; [done|].
    unfold exec, clear. cbn [app]. symex. reflexivity.
  - unfold exec, clear. cbn [app]. symex. split; reflexivity.
Qed.

(** ** Further properties of [copy], [clear] and the setters *)

Lemma exec_copy (h : heap) this src a b :
  h !! this = Some a → h !! src = Some b →
  exec (copy this src) h = Some (<[this := b]> h).
Proof.
  intros Ha Hb. destruct (decide (_last_Java_sp a = _last_Java_sp b)) as [He|Hne].
  - unfold exec. change (copy this src) with (take 4 (copy this src)).
    by rewrite (run_copy_same h this src a b 4 Ha Hb He).
  - by eapply exec_copy_changed.
Qed.

(** At each instant of [copy] the heap is the initial one with a new anchor
    at [this]. *)
Lemma heap_at_copy (h : heap) this src a b i :
  h !! this = Some a → h !! src = Some b →
  ∃ x, heap_at (copy this src) h i = Some (<[this := x]> h).
Proof.
  intros Ha Hb. unfold heap_at, exec.
  destruct (decide (_last_Java_sp a = _last_Java_sp b)) as [He|Hne].
  - rewrite (run_copy_same h this src a b i Ha Hb He). by eexists.
  - rewrite (run_copy_changed h this src a b i Ha Hb Hne). by eexists.
Qed.

(** X1.  When [copy] is called with a source whose [_last_Java_sp] equals the
    destination's (the two pointers may even be the same), the guard is false:
    no NULL is stored, FP, PC and SP are stored in this order, the
    destination's SP keeps its value at every instant of the call, and after
    the call the destination equals the source. *)
Theorem copy_unchanged_sp_protocol (h : heap) this src a b :
  h !! this = Some a → h !! src = Some b →
  _last_Java_sp a = _last_Java_sp b →
  actions (copy this src) h =
    Some [Skip; Store this FP (_last_Java_fp b);
          Store this PC (_last_Java_pc b); Store this SP (_last_Java_sp b)]
  ∧ (∀ i, ∃ x, anchor_at (copy this src) h this i = Some x
        ∧ _last_Java_sp x = _last_Java_sp a)
  ∧ exec (copy this src) h = Some (<[this := b]> h).
Proof.
  intros Ha Hb He. split; [|split].
  - unfold actions. change (copy this src) with (take 4 (copy this src)).
    by rewrite (run_copy_same h this src a b 4 Ha Hb He).
  - intros i. exists (copy_same_state a b i). split.
    + by apply anchor_at_copy_same.
    + destruct a as [sa pa fa], b as [sb pb fb]; simpl in He; subst sb.
      by destruct i as [|[|[|[|i]]]].
  - by eapply exec_copy.
Qed.

Lemma copy_unchanged_sp_protocol_witness :
  actions (copy 0x7000 0x7200) scenario =
    Some [Skip; Store 0x7000 FP 0x0FE0; Store 0x7000 PC 0x2400;
          Store 0x7000 SP 0x1000]
  ∧ exec (copy 0x7000 0x7200) scenario
    = Some (<[0x7000 := saved_same_sp]> scenario).
Proof.
  destruct (copy_unchanged_sp_protocol scenario 0x7000 0x7200 published
              saved_same_sp eq_refl eq_refl eq_refl) as (Hact & _ & Hex).
  exact (conj Hact Hex).
Defined.

(** X2.  Whatever the guard decides, [copy] leaves the destination equal to
    the source and the rest of the heap as it was; copying an anchor onto
    itself leaves the whole heap as it was. *)
Theorem copy_result (h : heap) this src a b :
  h !! this = Some a → h !! src = Some b →
  exec (copy this src) h = Some (<[this := b]> h)
  ∧ exec (copy src src) h = Some h.
Proof.
  intros Ha Hb. split.
  - by eapply exec_copy.
  - rewrite (exec_copy h src src b b Hb Hb). by rewrite insert_id.
Qed.

Lemma copy_result_witness :
  exec (copy 0x7000 0x7100) scenario = Some (<[0x7000 := saved_other]> scenario)
  ∧ exec (copy 0x7100 0x7100) scenario = Some scenario.
Proof.
  exact (copy_result scenario 0x7000 0x7100 published saved_other
           eq_refl eq_refl).
Defined.

(** X3.  [clear] and [copy] store to [this] only: at every instant of either
    call, every other anchor of the heap, the source of the copy included, is
    as it was before the call. *)
Theorem clear_copy_touch_only_this (h : heap) this src a b p i :
  h !! this = Some a → h !! src = Some b → p ≠ this →
  anchor_at (clear this) h p i = h !! p
  ∧ anchor_at (copy this src) h p i = h !! p.
Proof.
  intros Ha Hb Hp. split.
  - unfold anchor_at, heap_at, exec. rewrite (run_clear h this a i Ha).
    simpl. by rewrite lookup_insert_ne.
  - unfold anchor_at.
    destruct (heap_at_copy h this src a b i Ha Hb) as [x ->].
    simpl. by rewrite lookup_insert_ne.
Qed.

Lemma clear_copy_touch_only_this_witness :
  anchor_at (clear 0x7000) scenario 0x7100 2 = Some saved_other
  ∧ anchor_at (copy 0x7000 0x7100) scenario 0x7100 3 = Some saved_other.
Proof.
  assert (Hp : 0x7100 ≠ 0x7000) by lia.
  destruct (clear_copy_touch_only_this scenario 0x7000 0x7100 published
              saved_other 0x7100 2 eq_refl eq_refl Hp) as [Hclear _].
  destruct (clear_copy_touch_only_this scenario 0x7000 0x7100 published
              saved_other 0x7100 3 eq_refl eq_refl Hp) as [_ Hcopy].
  exact (conj Hclear Hcopy).
Defined.

(** X4.  Save and restore.  An anchor is saved with [saved.copy(this)];
    whatever is then stored to [this] (a [clear], for one), restoring with
    [this.copy(saved)] gives back the heap as it was right after the save,
    with the anchor at [this] equal to what it was before. *)
Theorem save_restore_round_trip (h : heap) this saved a s0 x :
  h !! this = Some a → h !! saved = Some s0 → this ≠ saved →
  exec (copy saved this) h = Some (<[saved := a]> h)
  ∧ exec (copy this saved) (<[this := x]> (<[saved := a]> h))
    = Some (<[saved := a]> h)
  ∧ (exec (copy saved this) h ≫= exec (clear this)) ≫= exec (copy this saved)
    = Some (<[saved := a]> h)
  ∧ (<[saved := a]> h) !! this = Some a.
Proof.
  intros Ha Hs Hne.
  assert (Hsave : exec (copy saved this) h = Some (<[saved := a]> h))
    by (by eapply exec_copy).
  assert (Hthis : (<[saved := a]> h) !! this = Some a)
    by (by rewrite lookup_insert_ne).
  assert (Hrestore : ∀ y,
    exec (copy this saved) (<[this := y]> (<[saved := a]> h))
    = Some (<[saved := a]> h)).
  { intros y.
    rewrite (exec_copy _ this saved y a).
    - rewrite insert_insert_eq. by rewrite insert_id.
    - apply lookup_insert_eq.
    - rewrite lookup_insert_ne by done. apply lookup_insert_eq. }
  split; [done|]. split; [done|]. split; [|done].
  rewrite Hsave. simpl.
  rewrite (exec_clear _ this a Hthis). simpl. apply Hrestore.
Qed.

Lemma save_restore_round_trip_witness :
  (exec (copy 0x7100 0x7000) scenario ≫= exec (clear 0x7000))
    ≫= exec (copy 0x7000 0x7100)
  = Some (<[0x7100 := published]> scenario).
Proof.
  assert (Hne : 0x7000 ≠ 0x7100) by lia.
  destruct (save_restore_round_trip scenario 0x7000 0x7100 published
              saved_other published eq_refl eq_refl Hne) as (_ & _ & Hrt & _).
  exact Hrt.
Defined.

(** X5.  The last update wins.  A [copy] from another anchor gives the same
    heap whether or not the destination was cleared first; a second [copy]
    from the same source changes nothing; and a [clear] after a [copy] gives
    what [clear] alone gives. *)
Theorem last_update_wins (h : heap) this src a b :
  h !! this = Some a → h !! src = Some b →
  (this ≠ src →
     exec (clear this) h ≫= exec (copy this src) = exec (copy this src) h)
  ∧ exec (copy this src) h ≫= exec (copy this src) = exec (copy this src) h
  ∧ exec (copy this src) h ≫= exec (clear this) = exec (clear this) h.
Proof.
  intros Ha Hb.
  rewrite (exec_copy h this src a b Ha Hb), (exec_clear h this a Ha). simpl.
  split; [|split].
  - intros Hne.
    rewrite (exec_copy _ this src (mkAnchor NULL NULL NULL) b).
    + by rewrite insert_insert_eq.
    + apply lookup_insert_eq.
    + by rewrite lookup_insert_ne.
  - rewrite (exec_copy _ this src b b).
    + by rewrite insert_insert_eq.
    + apply lookup_insert_eq.
    + destruct (decide (this = src)) as [->|Hne].
      * apply lookup_insert_eq.
      * by rewrite lookup_insert_ne.
  - rewrite (exec_clear _ this b).
    + by rewrite insert_insert_eq.
    + apply lookup_insert_eq.
Qed.

Lemma last_update_wins_witness :
  exec (clear 0x7000) scenario ≫= exec (copy 0x7000 0x7100)
  = exec (copy 0x7000 0x7100) scenario.
Proof.
  assert (Hne : 0x7000 ≠ 0x7100) by lia.
  destruct (last_update_wins scenario 0x7000 0x7100 published saved_other
              eq_refl eq_refl) as (Hcc & _ & _).
  exact (Hcc Hne).
Defined.

(** X6.  The setters.  After [set_last_Java_sp(v)] the getter returns [v]
    and FP and PC are as before; after [set_last_Java_fp(w)] the getter
    returns [w] and SP and PC are as before; the two setters commute. *)
Theorem setters_round_trip (h : heap) this a v w :
  h !! this = Some a →
  exec (set_last_Java_sp this v) h
    = Some (<[this := mkAnchor v (_last_Java_pc a) (_last_Java_fp a)]> h)
  ∧ exec (set_last_Java_sp this v) h ≫= last_Java_sp this = Some v
  ∧ exec (set_last_Java_sp this v) h ≫= last_Java_fp this
    = Some (_last_Java_fp a)
  ∧ exec (set_last_Java_fp this w) h
    = Some (<[this := mkAnchor (_last_Java_sp a) (_last_Java_pc a) w]> h)
  ∧ exec (set_last_Java_fp this w) h ≫= last_Java_fp this = Some w
  ∧ exec (set_last_Java_fp this w) h ≫= last_Java_sp this
    = Some (_last_Java_sp a)
  ∧ exec (set_last_Java_sp this v ++ set_last_Java_fp this w) h
    = exec (set_last_Java_fp this w ++ set_last_Java_sp this v) h.
Proof.
  intros Ha. destruct a as [sa pa fa].
  unfold exec, set_last_Java_sp, set_last_Java_fp, last_Java_sp, last_Java_fp.
  cbn [app]. symex. repeat split.
Qed.

Lemma setters_round_trip_witness :
  exec (set_last_Java_sp 0x7000 0x1200) scenario ≫= last_Java_sp 0x7000
    = Some 0x1200
  ∧ exec (set_last_Java_sp 0x7000 0x1200) scenario ≫= last_Java_fp 0x7000
    = Some 0x0FF0.
Proof.
  destruct (setters_round_trip scenario 0x7000 published 0x1200 0
              eq_refl) as (_ & Hsp & Hfp & _).
  exact (conj Hsp Hfp).
Defined.

(** X7.  Publication needs no second look.  During a [copy] with a changed
    [_last_Java_sp], a reader that loads SP first and FP and PC afterwards,
    and finds an SP that is present and is not the old one, has the complete
    new state.  In particular, when the destination's SP was absent before
    the call, every such sample with SP present is the new state. *)
Theorem new_sp_sample_is_new_state (h : heap) this src a b i j k s :
  h !! this = Some a → h !! src = Some b →
  _last_Java_sp a ≠ _last_Java_sp b →
  (i ≤ j)%nat → (i ≤ k)%nat →
  sample (copy this src) h this i j k = Some s →
  _last_Java_sp s ≠ NULL →
  (_last_Java_sp s ≠ _last_Java_sp a → Some s = h !! src)
  ∧ (_last_Java_sp a = NULL → Some s = h !! src).
Proof.
  intros Ha Hb Hne Hj Hk Hs Hp. rewrite Hb.
  rewrite (sample_copy_changed h this src a b i j k Ha Hb Hne) in Hs.
  injection Hs as <-. simpl in *.
  assert (Hnew : _last_Java_sp (copy_state a b i) ≠ _last_Java_sp a →
    mkAnchor (_last_Java_sp (copy_state a b i))
             (_last_Java_pc (copy_state a b k))
             (_last_Java_fp (copy_state a b j)) = b).
  { intros Hold.
    destruct (decide (i = 0%nat)) as [->|Hi]; [done|].
    destruct (decide (i ≤ 3)%nat) as [Hmid|Hlate].
    - rewrite (copy_state_sp_mid a b i) in Hp by lia. done.
    - rewrite !copy_state_done by lia. by destruct b. }
  split; [intros Hold; f_equal; by apply Hnew|].
  intros Hnull. f_equal. apply Hnew. congruence.
Qed.

Lemma new_sp_sample_is_new_state_witness :
  sample (copy 0x7000 0x7100) scenario 0x7000 4 4 5 = Some saved_other
  ∧ Some saved_other = scenario !! 0x7100.
Proof.
  split; [reflexivity|].
  assert (Hne : _last_Java_sp published ≠ _last_Java_sp saved_other)
    by (simpl; lia).
  assert (Hp : _last_Java_sp saved_other ≠ NULL) by (simpl; unfold NULL; lia).
  assert (Hnew : _last_Java_sp saved_other ≠ _last_Java_sp published)
    by (simpl; lia).
  destruct (new_sp_sample_is_new_state scenario 0x7000 0x7100 published
              saved_other 4 4 5 saved_other eq_refl eq_refl Hne
              ltac:(lia) ltac:(lia) eq_refl Hp) as [Hs _].
  exact (Hs Hnew).
Defined.

(** X8.  Publishing with the setters.  On an anchor whose SP is absent,
    [set_last_Java_fp] followed by [set_last_Java_sp] never shows a present
    SP without the new FP; in the other order the instant between the two
    calls shows the new SP with the old FP. *)
Theorem setter_order (h : heap) this a sp fp :
  h !! this = Some a → _last_Java_sp a = NULL →
  (∀ i x,
     anchor_at (set_last_Java_fp this fp ++ set_last_Java_sp this sp) h this i
       = Some x →
     _last_Java_sp x ≠ NULL →
     x = mkAnchor sp (_last_Java_pc a) fp)
  ∧ anchor_at (set_last_Java_sp this sp ++ set_last_Java_fp this fp) h this 1
    = Some (mkAnchor sp (_last_Java_pc a) (_last_Java_fp a))
  ∧ exec (set_last_Java_sp this sp ++ set_last_Java_fp this fp) h
    = Some (<[this := mkAnchor sp (_last_Java_pc a) fp]> h).
Proof.
  intros Ha Hnull. destruct a as [sa pa fa]. simpl in Hnull. subst sa.
  split; [|split].
  - intros i x.
    unfold anchor_at, heap_at, exec, set_last_Java_sp, set_last_Java_fp.
    cbn [app].
    destruct i as [|[|i]]; symex; intros [= <-]; simpl; intros Hp;
      done.
  - unfold anchor_at, heap_at, exec, set_last_Java_sp, set_last_Java_fp.
    cbn [app]. by symex.
  - unfold exec, set_last_Java_sp, set_last_Java_fp. cbn [app]. by symex.
Qed.

Lemma setter_order_witness :
  anchor_at (set_last_Java_sp 0x7000 0x1200 ++ set_last_Java_fp 0x7000 0x11F0)
    (<[0x7000 := mkAnchor NULL 0x2000 0x0FF0]> scenario) 0x7000 1
  = Some (mkAnchor 0x1200 0x2000 0x0FF0).
Proof.
  assert (Hl : (<[0x7000 := mkAnchor NULL 0x2000 0x0FF0]> scenario) !! 0x7000
               = Some (mkAnchor NULL 0x2000 0x0FF0)) by (vm_compute; reflexivity).
  destruct (setter_order (<[0x7000 := mkAnchor NULL 0x2000 0x0FF0]> scenario)
              0x7000 (mkAnchor NULL 0x2000 0x0FF0) 0x1200 0x11F0
              Hl eq_refl) as (_ & Hmid & _).
  exact Hmid.
Defined.

End FrameAnchorFacts.

(** * Properties of the serialization-page poll *)

Section SerializeMemoryFacts.

Import InterfaceSupport.

Context {M : Type}.
Variable write : address → M → M + EXCEPTION_RECORD * M.

(** A write that completes: the filter is not consulted. *)
Lemma serialize_memory_no_fault filter fuel thread m m' :
  write thread m = inl m' →
  serialize_memory write filter (S fuel) thread m = Some (Returned m').
Proof. intros Hw. simpl. by rewrite Hw. Qed.

(** A write that faults: the filter's value decides. *)
Lemma serialize_memory_fault filter fuel thread m e m' :
  write thread m = inr (e, m') →
  serialize_memory write filter (S fuel) thread m =
    match filter e with
    | EXCEPTION_EXECUTE_HANDLER => Some (Returned m')
    | EXCEPTION_CONTINUE_SEARCH => Some (Unwinding e m')
    | EXCEPTION_CONTINUE_EXECUTION => serialize_memory write filter fuel thread m'
    end.
Proof. intros Hw. simpl. by rewrite Hw. Qed.

(** With a filter that never asks to resume, one unit of fuel is enough:
    the wrapper always comes to an outcome. *)
Lemma serialize_memory_total page thread m :
  ∃ r, ∀ fuel,
    serialize_memory write (spec_serialize_fault_filter page) (S fuel) thread m
    = Some r.
Proof.
  destruct (write thread m) as [m'|[e m']] eqn:Hw.
  - exists (Returned m'). intros fuel. by apply serialize_memory_no_fault.
  - exists (if is_safepoint_page_fault page e
            then Returned m' else Unwinding e m').
    intros fuel. rewrite (serialize_memory_fault _ fuel thread m e m' Hw).
    unfold spec_serialize_fault_filter. by destruct (is_safepoint_page_fault page e).
Qed.

(** C3.  When the write to the serialization page faults, [serialize_memory]
    returns normally, through its empty handler block, exactly when the
    filter classifies the fault as a fault on the safepoint page; a fault the
    filter does not classify so, and in particular every fault at another
    address, leaves [serialize_memory] as the same exception, in the machine
    state of the fault, for the outer handlers. *)
Theorem serialize_memory_fault_containment page fuel thread m e m' :
  write thread m = inr (e, m') →
  let r := serialize_memory write (spec_serialize_fault_filter page)
             (S fuel) thread m in
  (r = Some (Returned m') ↔ is_safepoint_page_fault page e = true)
  ∧ (r = Some (Unwinding e m') ↔ is_safepoint_page_fault page e = false)
  ∧ (fault_address e ≠ page → r = Some (Unwinding e m')).
Proof.
  intros Hw r. subst r.
  rewrite (serialize_memory_fault _ fuel thread m e m' Hw).
  unfold spec_serialize_fault_filter.
  destruct (is_safepoint_page_fault page e) eqn:Hc.
  - split; [done|]. split; [done|]. intros Hne.
    unfold is_safepoint_page_fault in Hc.
    apply andb_prop in Hc as [_ Hp]. by apply bool_decide_eq_true in Hp.
  - split; [done|]. split; done.
Qed.

(** ** Outcomes of the wrapper for any write and any filter *)

(** X9.  The wrapper neither invents nor alters an outcome.  When it lets an
    exception unwind, the write raised exactly this exception, in exactly
    this machine state, and the filter answered [EXCEPTION_CONTINUE_SEARCH]
    for it; when it returns, either a write completed in the returned state
    or the filter answered [EXCEPTION_EXECUTE_HANDLER] for a fault raised in
    that state. *)
Theorem serialize_memory_outcome_origin filter fuel thread m r :
  serialize_memory write filter fuel thread m = Some r →
  match r with
  | Returned m' =>
      ∃ m0, write thread m0 = inl m'
            ∨ ∃ e, write thread m0 = inr (e, m')
                   ∧ filter e = EXCEPTION_EXECUTE_HANDLER
  | Unwinding e m' =>
      ∃ m0, write thread m0 = inr (e, m')
            ∧ filter e = EXCEPTION_CONTINUE_SEARCH
  end.
Proof.
  revert m. induction fuel as [|fuel IH]; intros m; simpl; [done|].
  destruct (write thread m) as [m'|[e m']] eqn:Hw.
  - intros [= <-]. exists m. by left.
  - destruct (filter e) eqn:Hf.
    + intros [= <-]. exists m. right. by exists e.
    + intros [= <-]. by exists m.
    + apply IH.
Qed.

(** X11.  A filter that resumes makes the wrapper retry.  If the write faults
    [n] times in a row, each fault answered by
    [EXCEPTION_CONTINUE_EXECUTION], and then completes, the wrapper returns
    the state of the completed write, given fuel for [n + 1] attempts. *)
Theorem serialize_memory_resumes_until_written filter thread
  (ms : nat → M) (es : nat → EXCEPTION_RECORD) n m' fuel :
  (∀ i, (i < n)%nat →
     write thread (ms i) = inr (es i, ms (S i))
     ∧ filter (es i) = EXCEPTION_CONTINUE_EXECUTION) →
  write thread (ms n) = inl m' →
  serialize_memory write filter (S n + fuel) thread (ms 0%nat)
  = Some (Returned m').
Proof.
  revert ms es. induction n as [|n IH]; intros ms es Hfaults Hdone.
  - simpl. by rewrite Hdone.
  - destruct (Hfaults 0%nat ltac:(lia)) as [Hw Hf].
    change (S (S n) + fuel)%nat with (S (S n + fuel)).
    cbn [serialize_memory]. rewrite Hw, Hf.
    apply (IH (λ i, ms (S i)) (λ i, es (S i))); [|done].
    intros i Hi. apply Hfaults. lia.
Qed.

(** X12.  The wrapper sets no bound of its own on the retries: while the
    write keeps faulting in the state it is resumed in and the filter keeps
    answering [EXCEPTION_CONTINUE_EXECUTION], no amount of fuel gives an
    outcome. *)
Theorem serialize_memory_resume_spins filter thread e :
  (∀ m, write thread m = inr (e, m)) →
  filter e = EXCEPTION_CONTINUE_EXECUTION →
  ∀ fuel m, serialize_memory write filter fuel thread m = None.
Proof.
  intros Hw Hf fuel. induction fuel as [|fuel IH]; intros m; simpl; [done|].
  by rewrite Hw, Hf.
Qed.

End SerializeMemoryFacts.

Lemma serialize_memory_fault_containment_witness :
  let stopped := InterfaceSupport.mkPage 0x5000 false 0 in
  let stray := InterfaceSupport.mkException
                 InterfaceSupport.EXCEPTION_ACCESS_VIOLATION 0x10 in
  InterfaceSupport.serialize_memory
    InterfaceSupport.spec_write_memory_serialize_page
    (InterfaceSupport.spec_serialize_fault_filter 0x5000) 1 0x100 stopped
  = Some (InterfaceSupport.Returned stopped)
  ∧ InterfaceSupport.serialize_memory
      (λ _ m, inr (stray, m))
      (InterfaceSupport.spec_serialize_fault_filter 0x5000) 1 0x100 stopped
    = Some (InterfaceSupport.Unwinding stray stopped).
Proof.
  intros stopped stray. split.
  - apply (serialize_memory_fault_containment
             InterfaceSupport.spec_write_memory_serialize_page 0x5000 0 0x100
             stopped
             (InterfaceSupport.mkException
                InterfaceSupport.EXCEPTION_ACCESS_VIOLATION 0x5000)
             stopped eq_refl).
    reflexivity.
  - apply (serialize_memory_fault_containment
             (λ _ m, inr (stray, m)) 0x5000 0 0x100 stopped stray stopped
             eq_refl).
    simpl. lia.
Defined.

Lemma serialize_memory_outcome_origin_witness :
  ∃ m0 : nat,
    InterfaceSupport.write_after 0x100 m0 = inl 0%nat
    ∨ ∃ e, InterfaceSupport.write_after 0x100 m0 = inr (e, 0%nat)
           ∧ InterfaceSupport.resuming_filter e
             = InterfaceSupport.EXCEPTION_EXECUTE_HANDLER.
Proof.
  exact (serialize_memory_outcome_origin InterfaceSupport.write_after
           InterfaceSupport.resuming_filter 3 0x100 2%nat
           (InterfaceSupport.Returned 0%nat) eq_refl).
Defined.

Lemma serialize_memory_resumes_until_written_witness :
  InterfaceSupport.serialize_memory InterfaceSupport.write_after
    InterfaceSupport.resuming_filter 3 0x100 2%nat
  = Some (InterfaceSupport.Returned 0%nat).
Proof.
  apply (serialize_memory_resumes_until_written InterfaceSupport.write_after
           InterfaceSupport.resuming_filter 0x100
           (λ i, (2 - i)%nat)
           (λ _, InterfaceSupport.mkException
                   InterfaceSupport.EXCEPTION_ACCESS_VIOLATION 0x5000)
           2 0%nat 0).
  - intros i Hi. destruct i as [|[|i]]; [split; reflexivity.. | lia].
  - reflexivity.
Defined.

Lemma serialize_memory_resume_spins_witness :
  InterfaceSupport.serialize_memory
    (λ _ (m : InterfaceSupport.serialize_page),
       inr (InterfaceSupport.mkException
              InterfaceSupport.EXCEPTION_ACCESS_VIOLATION 0x5000, m))
    InterfaceSupport.resuming_filter 1000 0x100
    (InterfaceSupport.mkPage 0x5000 false 0)
  = None.
Proof.
  apply (serialize_memory_resume_spins
           (λ _ (m : InterfaceSupport.serialize_page),
              inr (InterfaceSupport.mkException
                     InterfaceSupport.EXCEPTION_ACCESS_VIOLATION 0x5000, m))
           InterfaceSupport.resuming_filter 0x100
           (InterfaceSupport.mkException
              InterfaceSupport.EXCEPTION_ACCESS_VIOLATION 0x5000)).
  - intros m. reflexivity.
  - reflexivity.
Defined.

(** * Properties of the klassOop layout *)

Section KlassOopFacts.

Import KlassOop.

Lemma to_int_small z : - 2 ^ 31 ≤ z < 2 ^ 31 → to_int z = z.
Proof.
  intros Hz. unfold to_int.
  rewrite Z.mod_small by lia. lia.
Qed.

Context `{Layout}.

(** C6.  [header_size] and [klass_part_offset_in_bytes] are static and read
    no memory: called through any two Class Objects, in any two states of
    memory, each returns the same value, the one that the layout constants
    fix. *)
Theorem layout_constants_fixed (k1 k2 : address) (mem1 mem2 : memory) :
  call_header_size k1 mem1 = call_header_size k2 mem2
  ∧ call_klass_part_offset_in_bytes k1 mem1
    = call_klass_part_offset_in_bytes k2 mem2
  ∧ call_header_size k1 mem1 = to_int (sizeof_klassOopDesc ÷ HeapWordSize)
  ∧ call_klass_part_offset_in_bytes k1 mem1 = to_int sizeof_klassOopDesc.
Proof. repeat split. Qed.


(** C5, as amended.  [klass_part] returns the address of the Klass part
    embedded in the Class Object, the object's own address plus the fixed
    offset [sizeof(klassOopDesc)]; it loads no pointer, and the distance from
    the object to its Klass part is the same for every Class Object. *)
Theorem klass_part_is_address_arithmetic (this other : address) :
  0 ≤ sizeof_klassOopDesc < 2 ^ 31 →
  klass_part this = this + sizeof_klassOopDesc
  ∧ klass_part this - this = klass_part_offset_in_bytes
  ∧ klass_part this - this = klass_part other - other.
Proof.
  intros Hs. unfold klass_part, klass_part_offset_in_bytes.
  rewrite to_int_small by lia. lia.
Qed.

(** X13.  [header_size] counts whole heap words: [sizeof(klassOopDesc)] lies
    between [header_size] and [header_size + 1] heap words, and the offset
    of the Klass part is exactly the header's size in bytes if and only if
    [sizeof(klassOopDesc)] is a multiple of [HeapWordSize]. *)
Theorem header_size_rounds_down :
  0 < HeapWordSize →
  0 ≤ sizeof_klassOopDesc < 2 ^ 31 →
  0 ≤ header_size ≤ sizeof_klassOopDesc
  ∧ header_size * HeapWordSize ≤ klass_part_offset_in_bytes
      < (header_size + 1) * HeapWordSize
  ∧ (klass_part_offset_in_bytes = header_size * HeapWordSize
     ↔ (HeapWordSize | sizeof_klassOopDesc)).
Proof.
  intros Hw Hs.
  assert (Hoff : klass_part_offset_in_bytes = sizeof_klassOopDesc).
  { unfold klass_part_offset_in_bytes. apply to_int_small. lia. }
  assert (Hnz : HeapWordSize ≠ 0) by lia.
  pose proof (Z.div_mod sizeof_klassOopDesc HeapWordSize Hnz) as Hdm.
  pose proof (Z.mod_pos_bound sizeof_klassOopDesc HeapWordSize Hw) as Hm.
  assert (Hq : 0 ≤ sizeof_klassOopDesc / HeapWordSize ≤ sizeof_klassOopDesc).
  { split; [apply Z.div_pos; lia|]. nia. }
  assert (Hhdr : header_size = sizeof_klassOopDesc / HeapWordSize).
  { unfold header_size. rewrite Z.quot_div_nonneg by lia.
    apply to_int_small. lia. }
  rewrite Hoff, Hhdr. split; [done|]. split; [nia|].
  rewrite <- Z.mod_divide by lia. split; intros; nia.
Qed.

End KlassOopFacts.

Lemma header_size_rounds_down_witness :
  @KlassOop.header_size (KlassOop.mkLayout 10 4) * 4
    ≤ @KlassOop.klass_part_offset_in_bytes (KlassOop.mkLayout 10 4)
    < (@KlassOop.header_size (KlassOop.mkLayout 10 4) + 1) * 4.
Proof.
  destruct (@header_size_rounds_down (KlassOop.mkLayout 10 4)
              ltac:(simpl; lia) ltac:(simpl; lia)) as (_ & Hb & _).
  exact Hb.
Defined.



Lemma klass_part_is_address_arithmetic_witness :
  @KlassOop.klass_part KlassOop.x86_64 0x8000 = 0x8010.
Proof.
  apply (@klass_part_is_address_arithmetic KlassOop.x86_64 0x8000 0x8000).
  simpl. lia.
Defined.

(** C5, as stated, fails.  On 32-bit x86 take a Class Object at 0x8000 and a
    memory whose word at 0x8008 holds 0x9000.  An accessor that dereferences
    the fixed offset returns 0x9000, and 0 once that word is overwritten;
    [klass_part] returns 0x8008 whatever the memory holds. *)
Lemma klass_part_dereference_counterexample :
  @KlassOop.descriptor_by_dereference KlassOop.x86_32 {[ 0x8008 := 0x9000 ]} 0x8000
    = Some 0x9000
  ∧ @KlassOop.descriptor_by_dereference KlassOop.x86_32 {[ 0x8008 := 0 ]} 0x8000
    = Some 0
  ∧ @KlassOop.klass_part KlassOop.x86_32 0x8000 = 0x8008
  ∧ @KlassOop.descriptor_by_dereference KlassOop.x86_32 {[ 0x8008 := 0x9000 ]} 0x8000
    ≠ Some (@KlassOop.klass_part KlassOop.x86_32 0x8000).
Proof.
  split; [reflexivity|]. split; [reflexivity|]. split; [reflexivity|].
  vm_compute. discriminate.
Qed.
